(** * scope: sequential and parallel runners over a caller-owned state

    A shallow embedding of [scope.go] (package [scope]) and of the example
    package [prac/riddle].  Go functions become functions on an explicit
    world; a Go panic is the [Panic] outcome of a call and a deferred
    [recover] is a handler applied to the outcome of the function body. *)

From Stdlib Require Import String Ascii ZArith Lia DecimalString.
From stdpp Require Import base list strings relations.

(** ** The parts of the Go runtime and standard library the package uses *)

Module Go.

(** The result of calling a Go function: it returns a value, or it panics
    with a value, kept here as the text [%v] prints for it. *)
Inductive outcome (A : Type) : Type :=
| Return (a : A)
| Panic (v : string).
Arguments Return {A} a.
Arguments Panic {A} v.

(** The values of the interface [error] that the package creates or
    passes on: an error with a message ([errors.New], [fmt.Errorf]) and
    the wrapper built by [errors.Join].  A nil [error] is [None] of
    [option error]. *)
#[warnings="-register-all"]
Inductive error : Type :=
| errorString (msg : string)
| joinError (errs : list error).

(** [e.Error()]; a [joinError] prints its parts separated by newlines. *)
Fixpoint Error (e : error) : string :=
  match e with
  | errorString msg => msg
  | joinError errs =>
      (fix lines (l : list error) : string :=
         match l with
         | [] => ""
         | x :: l' =>
             match l' with
             | [] => Error x
             | _ :: _ => Error x +:+ String "010"%char (lines l')
             end
         end) errs
  end.

(** [fmt.Errorf("scope recovered: %v", r)] *)
Definition Errorf_recovered (r : string) : error :=
  errorString ("scope recovered: " +:+ r).

(** [errors.Join(errs...)]: nil values are discarded, and the result is
    nil when nothing is left. *)
Definition Join (errs : list (option error)) : option error :=
  match omap id errs with
  | [] => None
  | e :: es => Some (joinError (e :: es))
  end.

(** [%d] of a non-negative int. *)
Definition itoa (n : nat) : string := NilEmpty.string_of_uint (Nat.to_uint n).

(** A slice: the elements up to its length, and its capacity. *)
Record slice (A : Type) : Type := Slice { elems : list A; cap : nat }.
Arguments Slice {A} elems cap.
Arguments elems {A} s.
Arguments cap {A} s.

(** [make([]A, n)]: [n] zero values. *)
Definition make {A} (zero : A) (n : nat) : slice A :=
  Slice (replicate n zero) n.

(** [s[:high]]: the bound is checked against the capacity. *)
Definition slice_to {A} (s : slice A) (high : nat) : outcome (list A) :=
  if cap s <? high
  then Panic ("runtime error: slice bounds out of range [:" +:+ itoa high
              +:+ "] with capacity " +:+ itoa (cap s))
  else Return (take high (elems s)).

(** [s[low:]]: the bound is checked against the length. *)
Definition slice_from {A} (s : slice A) (low : nat) : outcome (list A) :=
  if length (elems s) <? low
  then Panic ("runtime error: slice bounds out of range [" +:+ itoa low
              +:+ ":" +:+ itoa (length (elems s)) +:+ "]")
  else Return (drop low (elems s)).

(** [append(s[:i], s[i+1:]...)]: the operands are evaluated from left to
    right; the result is shorter than [s] and stays in its array. *)
Definition delete_at {A} (s : slice A) (i : nat) : outcome (slice A) :=
  match slice_to s i with
  | Panic v => Panic v
  | Return front =>
      match slice_from s (i + 1) with
      | Panic v => Panic v
      | Return back => Return (Slice (front ++ back) (cap s))
      end
  end.

End Go.
Import Go.

(** ** Package scope *)

(** [context.Context], as far as the package builds it: the caller's
    context and the three derivations.  A [time.Duration] and a [time.Time]
    are integers. *)
Inductive context : Type :=
| Background
| WithCancel (parent : context)
| WithTimeout (parent : context) (timeout : Z)
| WithDeadline (parent : context) (deadline : Z).

(** What an observer of a call sees, in the order it happens: work item [i]
    of the batch was invoked, the checker was called with an error (which
    [Any] may pass as nil), the clean-up was called, a derived context was
    released by its deferred [cancel]. *)
Inductive event : Type :=
| EvWork (i : nat)
| EvChecker (err : option error)
| EvCleanUp (ctx : context)
| EvCancel (ctx : context).

Section Scope.

Context {T : Type}.

(** [Work[T]]: a work item updates the state behind the pointer and
    returns an error, nil or not, or panics. *)
Definition Work : Type := context -> T -> T * outcome (option error).

(** [Checker] and [CleanUp[T]] are the caller's hooks; they are taken to
    return normally.  A hook acts on the state it can reach. *)
Definition Checker : Type := option error -> T -> T.
Definition CleanUp : Type := context -> T -> T.

(** The state behind [state *T] together with the events so far. *)
Record world : Type := World { state : T; events : list event }.

Definition emit (ev : event) (w : world) : world :=
  World (state w) (events w ++ [ev]).

(** Go code acting on the world. *)
Definition M (A : Type) : Type := world -> world * outcome A.

Definition ret {A} (a : A) : M A := fun w => (w, Return a).

Definition bind {A B} (m : M A) (k : A -> M B) : M B :=
  fun w =>
    match m w with
    | (w', Return a) => k a w'
    | (w', Panic v) => (w', Panic v)
    end.

(** [defer func() { if r := recover(); r != nil { ... } }()] around a
    body: a panic of the body is handed to the handler, which makes the
    function return. *)
Definition recovering {A} (body : M A) (handler : string -> A) : M A :=
  fun w =>
    match body w with
    | (w', Return a) => (w', Return a)
    | (w', Panic r) => (w', Return (handler r))
    end.

(** [defer cancel()]: runs when the function leaves, by return or panic. *)
Definition deferred {A} (ev : event) (body : M A) : M A :=
  fun w => let (w', r) := body w in (emit ev w', r).

(** Calling work item [i] of a batch. *)
Definition call_work (ctx : context) (i : nat) (wk : Work) : M (option error) :=
  fun w =>
    let (st, r) := wk ctx (state w) in
    (World st (events w ++ [EvWork i]), r).

Definition call_checker (errChecker : Checker) (err : option error) : M unit :=
  fun w => (World (errChecker err (state w)) (events w ++ [EvChecker err]), Return tt).

Definition call_cleanup (cleanUp : CleanUp) (ctx : context) : M unit :=
  fun w => (World (cleanUp ctx (state w)) (events w ++ [EvCleanUp ctx]), Return tt).

End Scope.

Arguments Work T : clear implicits.
Arguments Checker T : clear implicits.
Arguments CleanUp T : clear implicits.
Arguments world T : clear implicits.
Arguments M T A : clear implicits.

Notation "'let!' x ':=' m 'in' k" := (bind m (fun x => k))
  (at level 10, x name, m at level 100, k at level 200).

Section Runners.

Context {T : Type}.

(** *** sequence *)

(** The loop of [sequence]: [i] is the position of the head of [f] in
    the batch. *)
Fixpoint sequence_loop (ctx : context) (i : nat) (f : list (Work T))
  : M T (option error) :=
  match f with
  | [] => ret None
  | wk :: f' =>
      let! err := call_work ctx i wk in
      match err with
      | Some e => ret (Some e)
      | None => sequence_loop ctx (S i) f'
      end
  end.

Definition sequence (ctx : context) (f : list (Work T)) : M T (option error) :=
  recovering (sequence_loop ctx 0 f) (fun r => Some (Errorf_recovered r)).

(** *** parallel *)

(** The goroutine started for work item [i], while [errs] has the length
    it was made with, which is so until the compaction: it records a
    non-nil error, or the error made from a recovered panic, in slot [i]
    of [errs].  [go_func] below is the goroutine on [errs] of any
    length. *)
Definition goroutine (ctx : context) (i : nat) (wk : Work T)
    (errs : list (option error)) (w : world T)
  : world T * list (option error) :=
  match call_work ctx i wk w with
  | (w', Return None) => (w', errs)
  | (w', Return (Some e)) => (w', <[i := Some e]> errs)
  | (w', Panic r) => (w', <[i := Some (Errorf_recovered r)]> errs)
  end.

(** [parallel] starts the goroutines and goes on to read [errs] without
    waiting for them.  [sched] lists, in the order they ran, the
    goroutines that have finished when [errs] is read, each at most once;
    the others have left their slots nil.  Under the schedule
    [0; ...; length f - 1], or any other order of all the positions, every
    goroutine has finished.  A goroutine outside [sched] is taken not to
    run before [parallel] has returned; what it does when it runs later
    is [go_func]. *)
Fixpoint run_goroutines (ctx : context) (f : list (Work T)) (sched : list nat)
    (errs : list (option error)) (w : world T)
  : world T * list (option error) :=
  match sched with
  | [] => (w, errs)
  | i :: sched' =>
      match f !! i with
      | Some wk =>
          let (w', errs') := goroutine ctx i wk errs w in
          run_goroutines ctx f sched' errs' w'
      | None => run_goroutines ctx f sched' errs w
      end
  end.

(** [for i, err := range errs { if err == nil { nilIdx = append(nilIdx, i) } }] *)
Fixpoint scan_nil (i : nat) (errs : list (option error)) (nilIdx : list nat)
  : list nat :=
  match errs with
  | [] => nilIdx
  | None :: errs' => scan_nil (S i) errs' (nilIdx ++ [i])
  | Some _ :: errs' => scan_nil (S i) errs' nilIdx
  end.

(** [for _, i := range nilIdx { errs = append(errs[:i], errs[i+1:]...) }] *)
Fixpoint compact (nilIdx : list nat) (errs : slice (option error))
  : outcome (slice (option error)) :=
  match nilIdx with
  | [] => Return errs
  | i :: nilIdx' =>
      match delete_at errs i with
      | Return errs' => compact nilIdx' errs'
      | Panic r => Panic r
      end
  end.

Definition lift {A} (r : outcome A) : M T A := fun w => (w, r).

(** What [parallel] does with [errs] once the goroutines are started.
    The named result [success] has its value before the first statement
    that can panic, and the deferred handler sets [err] only. *)
Definition collect (errs : slice (option error)) : M T (nat * option error) :=
  let nilIdx := scan_nil 0 (elems errs) (elems (make 0 4)) in
  let nilIdx := rev nilIdx in
  let success := length nilIdx in
  recovering
    (let! errs' := lift (compact nilIdx errs) in
     ret (success, Join (elems errs')))
    (fun r => (success, Some (Errorf_recovered r))).

Definition parallel (ctx : context) (f : list (Work T)) (sched : list nat)
  : M T (nat * option error) :=
  fun w =>
    let errs := make None (length f) in
    let (w', slots) := run_goroutines ctx f sched (elems errs) w in
    collect (Slice slots (cap errs)) w'.

End Runners.

Section Orchestrators.

Context {T : Type}.

(** [if err != nil { errChecker(err) }] *)
Definition check_error (errChecker : Checker T) (err : option error) : M T unit :=
  match err with
  | Some _ => call_checker errChecker err
  | None => ret tt
  end.

(** [if success == 0 { errChecker(err) }] *)
Definition check_success (errChecker : Checker T) (success : nat)
    (err : option error) : M T unit :=
  if success =? 0 then call_checker errChecker err else ret tt.

(** [if cleanUp != nil { cleanUp(ctx, state) }] *)
Definition clean_up (cleanUp : option (CleanUp T)) (ctx : context) : M T unit :=
  match cleanUp with
  | Some c => call_cleanup c ctx
  | None => ret tt
  end.

Definition Sequence (ctx : context) (errChecker : Checker T)
    (cleanUp : option (CleanUp T)) (f : list (Work T)) : M T unit :=
  let! err := sequence ctx f in
  let! _ := check_error errChecker err in
  clean_up cleanUp ctx.

Definition SequenceWithCancel (ctx : context) (errChecker : Checker T)
    (cleanUp : option (CleanUp T)) (f : list (Work T)) : M T unit :=
  let ctx := WithCancel ctx in
  deferred (EvCancel ctx)
    (let! err := sequence ctx f in
     let! _ := check_error errChecker err in
     clean_up cleanUp ctx).

Definition SequenceWithTimeout (ctx : context) (timeout : Z) (errChecker : Checker T)
    (cleanUp : option (CleanUp T)) (f : list (Work T)) : M T unit :=
  let ctx := WithTimeout ctx timeout in
  deferred (EvCancel ctx)
    (let! err := sequence ctx f in
     let! _ := check_error errChecker err in
     clean_up cleanUp ctx).

Definition SequenceWithDeadline (ctx : context) (deadline : Z) (errChecker : Checker T)
    (cleanUp : option (CleanUp T)) (f : list (Work T)) : M T unit :=
  let ctx := WithDeadline ctx deadline in
  deferred (EvCancel ctx)
    (let! err := sequence ctx f in
     let! _ := check_error errChecker err in
     clean_up cleanUp ctx).

(** The orchestrators over [parallel] take the schedule of its
    goroutines as well. *)
Definition All (ctx : context) (errChecker : Checker T)
    (cleanUp : option (CleanUp T)) (f : list (Work T)) (sched : list nat) : M T unit :=
  let! r := parallel ctx f sched in
  let! _ := check_error errChecker (snd r) in
  clean_up cleanUp ctx.

Definition AllWithCancel (ctx : context) (errChecker : Checker T)
    (cleanUp : option (CleanUp T)) (f : list (Work T)) (sched : list nat) : M T unit :=
  let ctx := WithCancel ctx in
  deferred (EvCancel ctx)
    (let! r := parallel ctx f sched in
     let! _ := check_error errChecker (snd r) in
     clean_up cleanUp ctx).

Definition AllWithTimeout (ctx : context) (timeout : Z) (errChecker : Checker T)
    (cleanUp : option (CleanUp T)) (f : list (Work T)) (sched : list nat) : M T unit :=
  let ctx := WithTimeout ctx timeout in
  deferred (EvCancel ctx)
    (let! r := parallel ctx f sched in
     let! _ := check_error errChecker (snd r) in
     clean_up cleanUp ctx).

Definition AllWithDeadline (ctx : context) (deadline : Z) (errChecker : Checker T)
    (cleanUp : option (CleanUp T)) (f : list (Work T)) (sched : list nat) : M T unit :=
  let ctx := WithDeadline ctx deadline in
  deferred (EvCancel ctx)
    (let! r := parallel ctx f sched in
     let! _ := check_error errChecker (snd r) in
     clean_up cleanUp ctx).

Definition Any (ctx : context) (errChecker : Checker T)
    (cleanUp : option (CleanUp T)) (f : list (Work T)) (sched : list nat) : M T unit :=
  let! r := parallel ctx f sched in
  let! _ := check_success errChecker (fst r) (snd r) in
  clean_up cleanUp ctx.

Definition AnyWithCancel (ctx : context) (errChecker : Checker T)
    (cleanUp : option (CleanUp T)) (f : list (Work T)) (sched : list nat) : M T unit :=
  let ctx := WithCancel ctx in
  deferred (EvCancel ctx)
    (let! r := parallel ctx f sched in
     let! _ := check_success errChecker (fst r) (snd r) in
     clean_up cleanUp ctx).

Definition AnyWithTimeout (ctx : context) (timeout : Z) (errChecker : Checker T)
    (cleanUp : option (CleanUp T)) (f : list (Work T)) (sched : list nat) : M T unit :=
  let ctx := WithTimeout ctx timeout in
  deferred (EvCancel ctx)
    (let! r := parallel ctx f sched in
     let! _ := check_success errChecker (fst r) (snd r) in
     clean_up cleanUp ctx).

Definition AnyWithDeadline (ctx : context) (deadline : Z) (errChecker : Checker T)
    (cleanUp : option (CleanUp T)) (f : list (Work T)) (sched : list nat) : M T unit :=
  let ctx := WithDeadline ctx deadline in
  deferred (EvCancel ctx)
    (let! r := parallel ctx f sched in
     let! _ := check_success errChecker (fst r) (snd r) in
     clean_up cleanUp ctx).

End Orchestrators.

(** ** Package riddle: the state and hooks of the example *)

Module riddle.

(** [atomic.Int64]: a 64-bit signed integer that wraps around. *)
Definition wrap64 (z : Z) : Z := ((z + 2 ^ 63) mod 2 ^ 64 - 2 ^ 63)%Z.

Record State : Type := { number : Z }.

Definition NewState : State := {| number := 0 |}.

Definition AddOne : Work State :=
  fun _ state => ({| number := wrap64 (number state + 1) |}, Return None).

Definition AddTwo : Work State :=
  fun _ state => ({| number := wrap64 (number state + 2) |}, Return None).

Definition SubOne : Work State :=
  fun _ state => ({| number := wrap64 (number state + -1) |}, Return None).

Definition SetZero : Work State :=
  fun _ state => ({| number := 0 |}, Return None).

(** The two clean-ups print the number; [ResetAndPrint] stores 0. *)
Definition ResetAndPrint : CleanUp State := fun _ state => {| number := 0 |}.

Definition JustPrint : CleanUp State := fun _ state => state.

End riddle.

(** ** What the theorems observe *)

(** The non-nil entries of [errs], in order. *)
Definition failures (errs : list (option error)) : list error := omap id errs.

(** The number of nil entries of [errs]. *)
Fixpoint count_nil (errs : list (option error)) : nat :=
  match errs with
  | [] => 0
  | None :: errs' => S (count_nil errs')
  | Some _ :: errs' => count_nil errs'
  end.

(** The indices of the nil entries of [errs], counted from [i]. *)
Fixpoint nil_indices (i : nat) (errs : list (option error)) : list nat :=
  match errs with
  | [] => []
  | None :: errs' => i :: nil_indices (S i) errs'
  | Some _ :: errs' => nil_indices (S i) errs'
  end.

(** The message of the run-time panic of [errs[1:]] on an empty [errs]. *)
Definition out_of_range_1_0 : string :=
  "runtime error: slice bounds out of range [1:0]".

Definition is_work (ev : event) : bool :=
  match ev with EvWork _ => true | _ => false end.

Definition is_checker (ev : event) : bool :=
  match ev with EvChecker _ => true | _ => false end.

Definition is_cleanup (ev : event) : bool :=
  match ev with EvCleanUp _ => true | _ => false end.

Section Observations.

Context {T : Type}.
Implicit Types (f : list (Work T)) (w : world T).

(** The state after the items of [fs] ran in order, whatever they
    returned. *)
Definition exec (ctx : context) (fs : list (Work T)) (st : T) : T :=
  foldl (fun st wk => fst (wk ctx st)) st fs.

(** What item [j] of [f] does when the items before it have run. *)
Definition result_at (ctx : context) f (st : T) (j : nat)
  : option (outcome (option error)) :=
  match f !! j with
  | Some wk => Some (snd (wk ctx (exec ctx (take j f) st)))
  | None => None
  end.

(** The failure a runner makes of the result of an item. *)
Definition failure_of (r : outcome (option error)) : option error :=
  match r with
  | Return err => err
  | Panic v => Some (Errorf_recovered v)
  end.

(** The slots of [errs] when [parallel] reads them, and the world then. *)
Definition recorded (ctx : context) f (sched : list nat) w
  : world T * list (option error) :=
  run_goroutines ctx f sched (elems (make None (length f))) w.

End Observations.

(** ** Executions of [parallel]

    The main goroutine starts one goroutine per work item and then
    collects; nothing in [parallel] makes it wait.  A configuration holds
    where the main goroutine is, the goroutines started and not finished,
    the slots of [errs] and the world.  The relation has the executions
    in which the collection is not interrupted: it is one step, and so is
    the run of a goroutine, and no goroutine runs once the collection is
    done.  Each of its executions is one of the code; the code has others
    besides. *)

Section Executions.

Context {T : Type}.

Inductive pc : Type :=
| Launching (i : nat)
| Returned (success : nat) (err : option error).

Record config : Type :=
  Config { main : pc; running : list nat;
           slots : list (option error); shared : world T }.

Inductive step (ctx : context) (f : list (Work T)) : config -> config -> Prop :=
| step_go i wk run errs w :
    f !! i = Some wk ->
    step ctx f (Config (Launching i) run errs w)
               (Config (Launching (S i)) (run ++ [i]) errs w)
| step_goroutine n i wk before after errs w :
    f !! i = Some wk ->
    step ctx f (Config (Launching n) (before ++ i :: after) errs w)
               (Config (Launching n) (before ++ after)
                       (snd (goroutine ctx i wk errs w))
                       (fst (goroutine ctx i wk errs w)))
| step_collect run errs w w' success err :
    collect (Slice errs (length f)) w = (w', Return (success, err)) ->
    step ctx f (Config (Launching (length f)) run errs w)
               (Config (Returned success err) run errs w').

Definition initial (f : list (Work T)) (w : world T) : config :=
  Config (Launching 0) [] (elems (make None (length f))) w.

End Executions.

(** ** The twelve orchestrators as one family *)

Inductive kind : Type := KSequence | KAll | KAny.

Inductive policy : Type :=
| Plain
| Cancel
| Timeout (timeout : Z)
| Deadline (deadline : Z).

(** The context the runner and the clean-up of an orchestrator receive. *)
Definition derive (p : policy) (ctx : context) : context :=
  match p with
  | Plain => ctx
  | Cancel => WithCancel ctx
  | Timeout timeout => WithTimeout ctx timeout
  | Deadline deadline => WithDeadline ctx deadline
  end.

(** The events of the deferred [cancel] of an orchestrator. *)
Definition released (p : policy) (ctx : context) : list event :=
  match p with
  | Plain => []
  | _ => [EvCancel (derive p ctx)]
  end.

Section Family.

Context {T : Type}.

Definition orchestrator (k : kind) (p : policy) (ctx : context)
    (errChecker : Checker T) (cleanUp : option (CleanUp T))
    (f : list (Work T)) (sched : list nat) : M T unit :=
  match k, p with
  | KSequence, Plain => Sequence ctx errChecker cleanUp f
  | KSequence, Cancel => SequenceWithCancel ctx errChecker cleanUp f
  | KSequence, Timeout timeout => SequenceWithTimeout ctx timeout errChecker cleanUp f
  | KSequence, Deadline deadline => SequenceWithDeadline ctx deadline errChecker cleanUp f
  | KAll, Plain => All ctx errChecker cleanUp f sched
  | KAll, Cancel => AllWithCancel ctx errChecker cleanUp f sched
  | KAll, Timeout timeout => AllWithTimeout ctx timeout errChecker cleanUp f sched
  | KAll, Deadline deadline => AllWithDeadline ctx deadline errChecker cleanUp f sched
  | KAny, Plain => Any ctx errChecker cleanUp f sched
  | KAny, Cancel => AnyWithCancel ctx errChecker cleanUp f sched
  | KAny, Timeout timeout => AnyWithTimeout ctx timeout errChecker cleanUp f sched
  | KAny, Deadline deadline => AnyWithDeadline ctx deadline errChecker cleanUp f sched
  end.

(** The events of the report step of an orchestrator of kind [k], from
    what its runner returned. *)
Definition reported (k : kind) (success : nat) (err : option error) : list event :=
  match k with
  | KSequence | KAll =>
      match err with Some _ => [EvChecker err] | None => [] end
  | KAny => if success =? 0 then [EvChecker err] else []
  end.

Definition cleaned (cleanUp : option (CleanUp T)) (ctx : context) : list event :=
  match cleanUp with Some _ => [EvCleanUp ctx] | None => [] end.

(** The runner of an orchestrator of kind [k]; [sequence] has no
    success count. *)
Definition runner (k : kind) (ctx : context) (f : list (Work T))
    (sched : list nat) : M T (nat * option error) :=
  match k with
  | KSequence => let! err := sequence ctx f in ret (0, err)
  | KAll | KAny => parallel ctx f sched
  end.

End Family.

(** ** Sample hooks and work items over the state of riddle *)

Definition panicking (v : string) : Work riddle.State :=
  fun _ state => (state, Panic v).

Definition failing (msg : string) : Work riddle.State :=
  fun _ state => (state, Return (Some (errorString msg))).

Definition logging : Checker riddle.State := fun _ state => state.

Definition fresh : world riddle.State := World riddle.NewState [].

(** The run of the README: [AddOne], [AddTwo] and [SubOne] in sequence
    leave 2, the checker is not called, and with [JustPrint] as clean-up a
    second and a third run on the same state leave 4 and 6. *)
Definition readme_run : M riddle.State unit :=
  Sequence Background logging (Some riddle.JustPrint)
           [riddle.AddOne; riddle.AddTwo; riddle.SubOne].

(** ** What the further theorems observe *)

Section FurtherObservations.

Context {T : Type}.

(** The state after the report step of an orchestrator of kind [k]: the
    checker has acted on it when it was called. *)
Definition after_report (k : kind) (errChecker : Checker T) (success : nat)
    (err : option error) (st : T) : T :=
  match reported k success err with
  | [] => st
  | _ :: _ => errChecker err st
  end.

(** The state after the clean-up step. *)
Definition after_cleanup (cleanUp : option (CleanUp T)) (ctx : context) (st : T) : T :=
  match cleanUp with
  | Some c => c ctx st
  | None => st
  end.

(** The work items of [f] at the positions of [sched], in that order. *)
Definition scheduled (f : list (Work T)) (sched : list nat) : list (Work T) :=
  omap (fun i => f !! i) sched.

End FurtherObservations.

(** [readme_run] repeated, each run on the state the run before left. *)
Definition readme_runs (n : nat) : world riddle.State :=
  Nat.iter n (fun w => fst (readme_run w)) fresh.

(** ** A goroutine on the variable [errs], and the batch in its order *)

Section LateGoroutines.

Context {T : Type}.

(** [errs[i] = x]: the index is checked against the length [errs] has
    when the assignment runs. *)
Definition store_at (errs : slice (option error)) (i : nat) (x : option error)
  : outcome (slice (option error)) :=
  if i <? length (elems errs)
  then Return (Slice (<[i := x]> (elems errs)) (cap errs))
  else Panic ("runtime error: index out of range [" +:+ itoa i
              +:+ "] with length " +:+ itoa (length (elems errs))).

(** The function of the [go] statement, on the value the captured
    variable [errs] has when the goroutine runs.  A panic of the body, of
    the work item or of [errs[i] = err], goes to the deferred handler; a
    panic of the handler's own [errs[i] = ...] is recovered by nobody: the
    goroutine ends with it, and with the goroutine the process.  That is
    the outcome [Panic]. *)
Definition go_func (ctx : context) (i : nat) (wk : Work T)
    (errs : slice (option error)) (w : world T)
  : world T * outcome (slice (option error)) :=
  let (w', r) :=
    match call_work ctx i wk w with
    | (w', Return None) => (w', Return errs)
    | (w', Return (Some e)) => (w', store_at errs i (Some e))
    | (w', Panic r) => (w', Panic r)
    end in
  match r with
  | Return errs' => (w', Return errs')
  | Panic r => (w', store_at errs i (Some (Errorf_recovered r)))
  end.

(** The compaction loop with the value the variable [errs] has when the
    loop ends or panics. *)
Fixpoint compact_var (nilIdx : list nat) (errs : slice (option error))
  : slice (option error) * option string :=
  match nilIdx with
  | [] => (errs, None)
  | i :: nilIdx' =>
      match delete_at errs i with
      | Return errs' => compact_var nilIdx' errs'
      | Panic r => (errs, Some r)
      end
  end.

(** The value of the variable [errs] when [parallel] returns, from the
    slots it has read. *)
Definition errs_left (f : list (Work T)) (slots : list (option error))
  : slice (option error) :=
  fst (compact_var (rev (scan_nil 0 slots (elems (make 0 4))))
                   (Slice slots (length f))).

(** What the work items of [f], run one after the other from [st], leave
    in their slots: nil, the error returned, or the error made of the
    panic. *)
Fixpoint outcomes (ctx : context) (f : list (Work T)) (st : T)
  : list (option error) :=
  match f with
  | [] => []
  | wk :: f' => failure_of (snd (wk ctx st)) :: outcomes ctx f' (fst (wk ctx st))
  end.

End LateGoroutines.

(** * Proofs *)

(** ** Facts about the collection step of [parallel] *)

Section CollectFacts.

Lemma scan_nil_indices i errs nilIdx :
  scan_nil i errs nilIdx = nilIdx ++ nil_indices i errs.
Proof.
  revert i nilIdx.
  induction errs as [|[e|] errs IH]; intros i nilIdx; simpl.
  - by rewrite app_nil_r.
  - apply IH.
  - rewrite IH, <- app_assoc. reflexivity.
Qed.

Lemma nil_indices_app i l1 l2 :
  nil_indices i (l1 ++ l2) = nil_indices i l1 ++ nil_indices (i + length l1) l2.
Proof.
  revert i.
  induction l1 as [|[e|] l1 IH]; intros i; simpl.
  - by rewrite Nat.add_0_r.
  - rewrite IH. do 2 f_equal. lia.
  - rewrite IH. do 3 f_equal. lia.
Qed.

Lemma failures_length_le errs : length (failures errs) <= length errs.
Proof.
  unfold failures.
  induction errs as [|[e|] errs IH]; cbn in *; lia.
Qed.

Lemma length_nil_indices i errs : length (nil_indices i errs) = count_nil errs.
Proof.
  revert i.
  induction errs as [|[e|] errs IH]; intros i; simpl; [done | apply IH |].
  by rewrite IH.
Qed.

Lemma count_nil_replicate n : count_nil (replicate n None) = n.
Proof. induction n as [|n IH]; [done|]. simpl. by rewrite IH. Qed.

Lemma compact_app a b (s : slice (option error)) :
  compact (a ++ b) s =
    match compact a s with
    | Return s' => compact b s'
    | Panic r => Panic r
    end.
Proof.
  revert s.
  induction a as [|i a IH]; intros s; simpl; [reflexivity|].
  destruct (delete_at s i); [apply IH | reflexivity].
Qed.

(** Deleting the entry after [l]. *)
Lemma delete_at_length (l : list (option error)) x back c :
  length (l ++ x :: back) <= c ->
  delete_at (Slice (l ++ x :: back) c) (length l) = Return (Slice (l ++ back) c).
Proof.
  intros Hc. rewrite length_app in Hc. simpl in Hc.
  unfold delete_at, slice_to, slice_from. simpl.
  destruct (Nat.ltb_spec c (length l)) as [?|_]; [lia|].
  rewrite length_app. simpl.
  destruct (Nat.ltb_spec (length l + S (length back)) (length l + 1)) as [?|_]; [lia|].
  rewrite take_app_length.
  replace (length l + 1) with (length (l ++ [x])) by (rewrite length_app; simpl; lia).
  replace (l ++ x :: back) with ((l ++ [x]) ++ back) by (by rewrite <- app_assoc).
  by rewrite drop_app_length.
Qed.

(** Deleting the nil entries from the highest index down leaves the
    failures, in order. *)
Lemma compact_nil_indices (l back : list (option error)) c :
  length (l ++ back) <= c ->
  compact (rev (nil_indices 0 l)) (Slice (l ++ back) c)
  = Return (Slice ((Some <$> failures l) ++ back) c).
Proof.
  revert back.
  induction l as [|x l IH] using rev_ind; intros back Hc; [reflexivity|].
  rewrite nil_indices_app. simpl.
  unfold failures in *. rewrite omap_app, fmap_app, <- !app_assoc.
  destruct x as [e|]; simpl.
  - rewrite app_nil_r. rewrite <- app_assoc in Hc. by apply IH.
  - rewrite rev_unit. simpl. rewrite <- app_assoc in Hc. simpl in Hc.
    rewrite delete_at_length by done.
    apply IH. rewrite !length_app in *. simpl in Hc. lia.
Qed.

(** The four zero entries of [nilIdx] delete the first four failures, and
    panic when fewer than four are left. *)
Lemma compact_zeros (l : list (option error)) c :
  compact [0; 0; 0; 0] (Slice l c)
  = if length l <? 4 then Panic out_of_range_1_0 else Return (Slice (drop 4 l) c).
Proof.
  destruct l as [|x1 [|x2 [|x3 [|x4 l]]]]; reflexivity.
Qed.

Lemma compact_nilIdx (errs : list (option error)) c :
  length errs <= c ->
  compact (rev (scan_nil 0 errs (elems (make 0 4)))) (Slice errs c)
  = if length (failures errs) <? 4 then Panic out_of_range_1_0
    else Return (Slice (Some <$> drop 4 (failures errs)) c).
Proof.
  intros Hc.
  rewrite scan_nil_indices, rev_app_distr, compact_app.
  pose proof (compact_nil_indices errs [] c) as H.
  rewrite !app_nil_r in H. rewrite H by done. clear H.
  change (rev (elems (make 0 4))) with [0; 0; 0; 0].
  rewrite compact_zeros, length_fmap, fmap_drop. reflexivity.
Qed.

Lemma Join_fmap_Some (es : list error) :
  Join (Some <$> es) = match es with [] => None | _ => Some (joinError es) end.
Proof.
  unfold Join.
  assert (omap id (Some <$> es) = es) as ->.
  { induction es as [|e es IH]; csimpl; [done|]. by rewrite IH. }
  by destruct es.
Qed.

(** The result of the collection step, for any recorded [errs]. *)
Lemma collect_spec {T} (errs : list (option error)) c (w : world T) :
  length errs <= c ->
  collect (Slice errs c) w
  = (w, Return (4 + count_nil errs,
                if length (failures errs) <? 4
                then Some (Errorf_recovered out_of_range_1_0)
                else match drop 4 (failures errs) with
                     | [] => None
                     | es => Some (joinError es)
                     end)).
Proof.
  intros Hc. unfold collect, recovering, bind, lift, ret.
  change (elems (Slice errs c)) with errs.
  rewrite (compact_nilIdx errs c Hc).
  rewrite length_rev, scan_nil_indices, length_app, length_nil_indices.
  destruct (length (failures errs) <? 4); simpl; [done|].
  rewrite Join_fmap_Some. by destruct (drop 4 (failures errs)).
Qed.

End CollectFacts.

(** ** Facts about the runners *)

Section RunnerFacts.

Context {T : Type}.
Implicit Types (f : list (Work T)) (w : world T) (errs : list (option error)).

Lemma sequence_loop_spec ctx f : forall i w,
  ((forall j, j < length f -> result_at ctx f (state w) j = Some (Return None))
   /\ sequence_loop ctx i f w
      = (World (exec ctx f (state w)) (events w ++ (EvWork <$> seq i (length f))),
         Return None))
  \/ (exists k r,
        k < length f
        /\ (forall j, j < k -> result_at ctx f (state w) j = Some (Return None))
        /\ result_at ctx f (state w) k = Some r
        /\ r <> Return None
        /\ sequence_loop ctx i f w
           = (World (exec ctx (take (S k) f) (state w))
                    (events w ++ (EvWork <$> seq i (S k))), r)).
Proof.
  induction f as [|wk f IH]; intros i w.
  - left. split; [simpl; lia|]. destruct w. simpl. by rewrite app_nil_r.
  - cbn [sequence_loop]. unfold bind, call_work.
    destruct (wk ctx (state w)) as [st r] eqn:Hwk.
    assert (result_at ctx (wk :: f) (state w) 0 = Some r) as H0.
    { unfold result_at. simpl. by rewrite Hwk. }
    assert (forall j, result_at ctx (wk :: f) (state w) (S j) = result_at ctx f st j) as HS.
    { intros j. unfold result_at. simpl. by rewrite Hwk. }
    assert (forall fs, exec ctx (wk :: fs) (state w) = exec ctx fs st) as Hexec.
    { intros fs. unfold exec. simpl. by rewrite Hwk. }
    destruct r as [[e|]|v].
    + right. exists 0, (Return (Some e)).
      split_and!; [simpl; lia | intros; lia | done | done |].
      unfold ret, exec. simpl. by rewrite ?Hwk.
    + destruct (IH (S i) (World st (events w ++ [EvWork i]))) as [[Hall Heq]|(k & r & Hk & Hbefore & Hat & Hr & Heq)].
      * left. split.
        -- intros [|j] Hj; [done|]. rewrite HS. apply Hall. simpl in Hj. lia.
        -- rewrite Heq, Hexec. simpl. by rewrite <- app_assoc.
      * right. exists (S k), r. split_and!; [simpl; lia | | by rewrite HS | done |].
        -- intros [|j] Hj; [done|]. rewrite HS. apply Hbefore. lia.
        -- rewrite Heq. change (take (S (S k)) (wk :: f)) with (wk :: take (S k) f).
           rewrite Hexec. simpl. by rewrite <- app_assoc.
    + right. exists 0, (Panic v).
      split_and!; [simpl; lia | intros; lia | done | done |].
      unfold exec. simpl. by rewrite ?Hwk.
Qed.

Lemma goroutine_length ctx i wk errs w :
  length (snd (goroutine ctx i wk errs w)) = length errs.
Proof.
  unfold goroutine. destruct (call_work ctx i wk w) as [w' [[e|]|r]]; simpl;
    by rewrite ?length_insert.
Qed.

Lemma goroutine_events ctx i wk errs w :
  events (fst (goroutine ctx i wk errs w)) = events w ++ [EvWork i].
Proof.
  unfold goroutine, call_work.
  destruct (wk ctx (state w)) as [st [[e|]|r]]; done.
Qed.

Lemma run_goroutines_length ctx f sched : forall errs w,
  length (snd (run_goroutines ctx f sched errs w)) = length errs.
Proof.
  induction sched as [|i sched IH]; intros errs w; simpl; [done|].
  destruct (f !! i) as [wk|]; [|apply IH].
  pose proof (goroutine_length ctx i wk errs w) as Hlen.
  destruct (goroutine ctx i wk errs w) as [w' errs']. rewrite IH. done.
Qed.

Lemma run_goroutines_events ctx f sched : forall errs w,
  exists ran, events (fst (run_goroutines ctx f sched errs w)) = events w ++ ran
              /\ forallb is_work ran = true.
Proof.
  induction sched as [|i sched IH]; intros errs w; simpl.
  - exists []. by rewrite app_nil_r.
  - destruct (f !! i) as [wk|]; [|apply IH].
    pose proof (goroutine_events ctx i wk errs w) as Hev.
    destruct (goroutine ctx i wk errs w) as [w' errs']. simpl in Hev.
    destruct (IH errs' w') as (ran & -> & Hran).
    exists (EvWork i :: ran). rewrite Hev, <- app_assoc. done.
Qed.

(** [parallel] in terms of the recorded slots. *)
Lemma parallel_spec ctx f sched w :
  parallel ctx f sched w
  = (fst (recorded ctx f sched w),
     Return (4 + count_nil (snd (recorded ctx f sched w)),
             if length (failures (snd (recorded ctx f sched w))) <? 4
             then Some (Errorf_recovered out_of_range_1_0)
             else match drop 4 (failures (snd (recorded ctx f sched w))) with
                  | [] => None
                  | es => Some (joinError es)
                  end)).
Proof.
  unfold parallel, recorded.
  pose proof (run_goroutines_length ctx f sched (elems (make None (length f))) w) as Hlen.
  destruct (run_goroutines ctx f sched (elems (make None (length f))) w) as [w' slots].
  simpl in *. rewrite length_replicate in Hlen.
  apply collect_spec. lia.
Qed.

End RunnerFacts.

(** ** Facts about the executions of [parallel] *)

Section ExecutionFacts.

Context {T : Type}.
Implicit Types (f : list (Work T)) (w : world T).

Lemma launch_all ctx f errs w : forall n i run,
  i + n = length f ->
  rtc (step ctx f) (Config (Launching i) run errs w)
                   (Config (Launching (length f)) (run ++ seq i n) errs w).
Proof.
  induction n as [|n IH]; intros i run Hi.
  - simpl. rewrite app_nil_r. replace i with (length f) by lia. apply rtc_refl.
  - destruct (lookup_lt_is_Some_2 f i) as [wk Hwk]; [lia|].
    eapply rtc_l; [by eapply step_go|].
    simpl. replace (run ++ i :: seq (S i) n) with ((run ++ [i]) ++ seq (S i) n)
      by (by rewrite <- app_assoc).
    apply IH. lia.
Qed.

Lemma run_scheduled ctx f n : forall sched run errs w,
  NoDup sched ->
  (forall i, i ∈ sched -> i ∈ run) ->
  exists run',
    rtc (step ctx f) (Config (Launching n) run errs w)
        (Config (Launching n) run'
                (snd (run_goroutines ctx f sched errs w))
                (fst (run_goroutines ctx f sched errs w)))
    /\ (forall j, j ∈ run -> j ∉ sched -> j ∈ run').
Proof.
  induction sched as [|i sched IH]; intros run errs w Hnd Hin.
  - exists run. split; [apply rtc_refl | done].
  - apply NoDup_cons in Hnd as [Hi Hnd]. simpl.
    destruct (f !! i) as [wk|] eqn:Hwk.
    + destruct (list_elem_of_split run i) as (before & after & ->).
      { apply Hin. left. }
      destruct (goroutine ctx i wk errs w) as [w' errs'] eqn:Hg.
      destruct (IH (before ++ after) errs' w' Hnd) as (run' & Hsteps & Hrest).
      { intros j Hj. specialize (Hin j (list_elem_of_further _ _ _ Hj)).
        apply elem_of_app in Hin as [?|Hin%elem_of_cons]; [set_solver|].
        destruct Hin as [->|?]; [done|set_solver]. }
      exists run'. split.
      * eapply rtc_l; [by eapply step_goroutine|]. by rewrite Hg.
      * intros j Hj Hj'. apply not_elem_of_cons in Hj' as [Hne Hj'].
        apply Hrest; [|done].
        apply elem_of_app in Hj as [?|Hj%elem_of_cons]; [set_solver|].
        destruct Hj as [->|?]; [done|set_solver].
    + destruct (IH run errs w Hnd) as (run' & Hsteps & Hrest).
      { intros j Hj. apply Hin. by right. }
      exists run'. split; [done|].
      intros j Hj Hj'. apply Hrest; [done|].
      by apply not_elem_of_cons in Hj' as [_ Hj'].
Qed.

(** Every result of [parallel] under a schedule is the result of an
    execution of the relation, and the goroutines outside the schedule
    are still running when [parallel] returns. *)
Lemma parallel_execution ctx f sched w w' success err :
  NoDup sched ->
  (forall i, i ∈ sched -> i < length f) ->
  parallel ctx f sched w = (w', Return (success, err)) ->
  exists run errs,
    rtc (step ctx f) (initial f w) (Config (Returned success err) run errs w')
    /\ (forall j, j < length f -> j ∉ sched -> j ∈ run).
Proof.
  intros Hnd Hlt Hpar. unfold parallel in Hpar.
  destruct (run_scheduled ctx f (length f) sched (seq 0 (length f))
              (elems (make None (length f))) w Hnd) as (run & Hsteps & Hrest).
  { intros i Hi. apply elem_of_seq. specialize (Hlt i Hi). lia. }
  destruct (run_goroutines ctx f sched (elems (make None (length f))) w)
    as [w1 errs1] eqn:Hrun.
  exists run, errs1. split.
  - eapply rtc_trans; [exact (launch_all ctx f _ w (length f) 0 [] eq_refl)|].
    eapply rtc_trans; [exact Hsteps|].
    apply rtc_once. simpl. by apply step_collect.
  - intros j Hj Hj'. apply Hrest; [|done]. apply elem_of_seq. lia.
Qed.

(** [parallel] can return when no goroutine has run. *)
Lemma parallel_can_return_first ctx f w :
  rtc (step ctx f) (initial f w)
      (Config (Returned (4 + length f) (Some (Errorf_recovered out_of_range_1_0)))
              (seq 0 (length f)) (replicate (length f) None) w).
Proof.
  eapply rtc_trans; [exact (launch_all ctx f _ w (length f) 0 [] eq_refl)|].
  apply rtc_once. simpl. apply step_collect.
  rewrite collect_spec by (by rewrite length_replicate).
  assert (failures (replicate (length f) None) = []) as Hnone.
  { unfold failures. induction (length f) as [|n IH]; [done|]. simpl. apply IH. }
  by rewrite Hnone, count_nil_replicate.
Qed.

Lemma collect_world (errs : slice (option error)) (w : world T) :
  fst (collect errs w) = w.
Proof.
  unfold collect, recovering, bind, lift, ret.
  by destruct (compact _ errs).
Qed.

Lemma run_goroutines_app ctx f sched1 sched2 : forall errs (w : world T),
  run_goroutines ctx f (sched1 ++ sched2) errs w
  = run_goroutines ctx f sched2 (snd (run_goroutines ctx f sched1 errs w))
                   (fst (run_goroutines ctx f sched1 errs w)).
Proof.
  induction sched1 as [|i sched1 IH]; intros errs w; simpl; [done|].
  destruct (f !! i) as [wk|]; [|apply IH].
  destruct (goroutine ctx i wk errs w) as [w' errs']. apply IH.
Qed.

(** Every execution of the relation is one of the schedules: what the
    goroutines have written is what they write under some schedule, and
    when [parallel] has returned, it has returned what it returns under
    that schedule. *)
Lemma execution_schedule ctx f (w : world T) c :
  rtc (step ctx f) (initial f w) c ->
  exists sched,
    recorded ctx f sched w = (shared c, slots c)
    /\ forall success err,
        main c = Returned success err ->
        parallel ctx f sched w = (shared c, Return (success, err)).
Proof.
  intros Hsteps. pattern c.
  eapply rtc_ind_r; [| |exact Hsteps]; clear c Hsteps.
  - exists []. by split.
  - intros c c' _ Hstep (sched & Hrec & Hret).
    destruct Hstep as [i wk run errs w1 Hwk|n i wk before after errs w1 Hwk
                       |run errs w1 w' success err Hcollect]; simpl in *.
    + exists sched. by split.
    + exists (sched ++ [i]). split; [|done].
      unfold recorded in *. rewrite run_goroutines_app, Hrec. simpl.
      rewrite Hwk. by destruct (goroutine ctx i wk errs w1).
    + pose proof (collect_world (Slice errs (length f)) w1) as Hw.
      rewrite Hcollect in Hw. simpl in Hw. subst w'.
      exists sched. split; [done|].
      intros success' err' [= <- <-].
      unfold parallel. unfold recorded in Hrec. by rewrite Hrec.
Qed.

End ExecutionFacts.

(** ** Facts about the orchestrators *)

Section FamilyFacts.

Context {T : Type}.

Lemma forallb_is_work l : forallb is_work (EvWork <$> l) = true.
Proof. induction l as [|i l IH]; [done|]. simpl. exact IH. Qed.

Lemma sequence_returns ctx (f : list (Work T)) w :
  exists w' err n,
    sequence ctx f w = (w', Return err)
    /\ events w' = events w ++ (EvWork <$> seq 0 n).
Proof.
  unfold sequence, recovering.
  destruct (sequence_loop_spec ctx f 0 w) as [[_ ->]|(k & r & _ & _ & _ & _ & ->)].
  - by eexists _, _, _.
  - destruct r; by eexists _, _, _.
Qed.

Lemma runner_returns k ctx (f : list (Work T)) sched w :
  exists w' success err ran,
    runner k ctx f sched w = (w', Return (success, err))
    /\ events w' = events w ++ ran
    /\ forallb is_work ran = true
    /\ (k = KAny -> (success =? 0) = false).
Proof.
  destruct k; simpl.
  - destruct (sequence_returns ctx f w) as (w' & err & n & Hseq & Hev).
    exists w', 0, err, (EvWork <$> seq 0 n). unfold bind, ret. rewrite Hseq.
    split_and!; [done | done | apply forallb_is_work | done].
  - rewrite parallel_spec. unfold recorded.
    destruct (run_goroutines_events ctx f sched (elems (make None (length f))) w)
      as (ran & Hev & Hran).
    eexists _, _, _, ran. split_and!; [done | done | done | done].
  - rewrite parallel_spec. unfold recorded.
    destruct (run_goroutines_events ctx f sched (elems (make None (length f))) w)
      as (ran & Hev & Hran).
    eexists _, _, _, ran. split_and!; [done | done | done | done].
Qed.

(** Every orchestrator returns, and its events are those of its runner,
    then of the report, then of the clean-up, then of the release. *)
Lemma orchestrator_events k p ctx chk cl (f : list (Work T)) sched w :
  exists w1 success err,
    runner k (derive p ctx) f sched w = (w1, Return (success, err))
    /\ exists w',
        orchestrator k p ctx chk cl f sched w = (w', Return tt)
        /\ events w' = events w1 ++ reported k success err
                         ++ cleaned cl (derive p ctx) ++ released p ctx.
Proof.
  destruct (runner_returns k (derive p ctx) f sched w)
    as (w1 & success & err & ran & Hrun & _ & _ & Hany).
  exists w1, success, err. split; [done|].
  destruct k, p; simpl in Hrun |- *;
    unfold Sequence, SequenceWithCancel, SequenceWithTimeout, SequenceWithDeadline,
      All, AllWithCancel, AllWithTimeout, AllWithDeadline,
      Any, AnyWithCancel, AnyWithTimeout, AnyWithDeadline, deferred, bind in *;
    unfold ret in Hrun;
    try (destruct (sequence _ f w) as [w2 [err2|v2]]; [|done];
         injection Hrun as -> <- ->);
    try rewrite Hrun; simpl;
    unfold check_error, check_success, clean_up, call_checker, call_cleanup, ret, emit;
    try rewrite (Hany eq_refl);
    destruct err as [e|], cl as [c|]; simpl;
    eexists; (split; [reflexivity|]); simpl;
    rewrite <- ?app_assoc, ?app_nil_r; reflexivity.
Qed.

End FamilyFacts.

(** ** The run of the README *)

Example readme_run_once :
  readme_run fresh
  = (World {| riddle.number := 2 |}
           [EvWork 0; EvWork 1; EvWork 2; EvCleanUp Background],
     Return tt).
Proof. reflexivity. Qed.

Example readme_run_thrice :
  riddle.number (state (fst (readme_run (fst (readme_run fresh))))) = 4%Z
  /\ riddle.number
       (state (fst (readme_run (fst (readme_run (fst (readme_run fresh)))))))
     = 6%Z.
Proof. split; reflexivity. Qed.

Example reset_and_print_resets :
  riddle.number
    (state (fst (Sequence Background logging (Some riddle.ResetAndPrint)
                          [riddle.AddOne; riddle.AddTwo; riddle.SubOne] fresh)))
  = 0%Z.
Proof. reflexivity. Qed.

(** ** The runners and faults *)

Section RunnerTheorems.

Context {T : Type}.

(** C5: [sequence] runs the items in list order and stops at the first
    item that fails, by a non-nil error or by a panic it recovers: the
    items invoked are exactly those at positions [0 .. n-1], in that
    order, the state is the one these items leave, and either every item
    succeeded, [n] is the length of the batch and no failure is returned,
    or item [n-1] is the first that did not succeed and the failure made
    of its result is returned. *)
Theorem sequence_stops_at_first_failure ctx (f : list (Work T)) (w : world T) :
  exists n err,
    sequence ctx f w
    = (World (exec ctx (take n f) (state w)) (events w ++ (EvWork <$> seq 0 n)),
       Return err)
    /\ match err with
       | None =>
           n = length f
           /\ forall j, j < n -> result_at ctx f (state w) j = Some (Return None)
       | Some e =>
           exists k r,
             n = S k /\ k < length f
             /\ (forall j, j < k -> result_at ctx f (state w) j = Some (Return None))
             /\ result_at ctx f (state w) k = Some r
             /\ r <> Return None
             /\ failure_of r = Some e
       end.
Proof.
  unfold sequence, recovering.
  destruct (sequence_loop_spec ctx f 0 w)
    as [[Hall ->]|(k & r & Hk & Hbefore & Hat & Hr & ->)].
  - exists (length f), None. by rewrite firstn_all.
  - destruct r as [[e|]|v]; [| done |].
    + exists (S k), (Some e). split; [done|]. by exists k, (Return (Some e)).
    + exists (S k), (Some (Errorf_recovered v)). split; [done|].
      by exists k, (Panic v).
Qed.

End RunnerTheorems.

(** ** The orchestrators *)

Section OrchestratorTheorems.

Context {T : Type}.

(** C9: the success count [parallel] returns is 4 plus the number of
    slots that are nil when it reads them, so it is at least 4 and never
    0, and no orchestrator of the [Any] family calls the checker. *)
Theorem success_count_at_least_four ctx (f : list (Work T)) sched w :
  (exists success err,
      parallel ctx f sched w = (fst (recorded ctx f sched w), Return (success, err))
      /\ success = 4 + count_nil (snd (recorded ctx f sched w))
      /\ 4 <= success
      /\ (success =? 0) = false)
  /\ (forall p chk cl,
        exists w' ran,
          orchestrator KAny p ctx chk cl f sched w = (w', Return tt)
          /\ events w' = events w ++ ran ++ cleaned cl (derive p ctx) ++ released p ctx
          /\ forallb is_work ran = true).
Proof.
  split.
  - rewrite parallel_spec. eexists _, _. split_and!; [done | done | lia | done].
  - intros p chk cl.
    destruct (orchestrator_events KAny p ctx chk cl f sched w)
      as (w1 & success & err & Hrun & w' & Horch & Hev).
    destruct (runner_returns KAny (derive p ctx) f sched w)
      as (w1' & success' & err' & ran & Hrun' & Hran & Hwork & Hany).
    rewrite Hrun in Hrun'. injection Hrun' as <- <- <-.
    exists w', ran. split_and!; [done | | done].
    rewrite Hev, Hran. simpl. rewrite (Hany eq_refl), <- app_assoc. done.
Qed.

(** C10: when fewer than four of the slots [parallel] reads are non-nil,
    the compaction loop panics on [errs[1:]] of an empty [errs], the
    deferred handler of [parallel] recovers the panic, and [parallel]
    returns the one error made of it, whose message starts with
    ["scope recovered:"]. *)
Theorem few_failures_panic_recovered ctx (f : list (Work T)) sched w
    (Hfew : length (failures (snd (recorded ctx f sched w))) < 4) :
  compact (rev (scan_nil 0 (snd (recorded ctx f sched w)) (elems (make 0 4))))
          (Slice (snd (recorded ctx f sched w)) (length f))
  = Panic out_of_range_1_0
  /\ exists success err,
      parallel ctx f sched w
      = (fst (recorded ctx f sched w), Return (success, Some (errorString err)))
      /\ err = "scope recovered: " +:+ out_of_range_1_0
      /\ String.prefix "scope recovered:" err = true.
Proof.
  apply Nat.ltb_lt in Hfew. split.
  - rewrite compact_nilIdx, Hfew; [done|].
    unfold recorded. rewrite run_goroutines_length. simpl.
    by rewrite length_replicate.
  - rewrite parallel_spec, Hfew. by eexists _, _.
Qed.

End OrchestratorTheorems.

Lemma few_failures_panic_recovered_witness :
  let f := [riddle.AddOne; failing "a"; panicking "boom"] in
  let sched := [2; 0; 1] in
  length (failures (snd (recorded Background f sched fresh))) < 4
  /\ (compact (rev (scan_nil 0 (snd (recorded Background f sched fresh))
                            (elems (make 0 4))))
              (Slice (snd (recorded Background f sched fresh)) (length f))
      = Panic out_of_range_1_0
      /\ exists success err,
          parallel Background f sched fresh
          = (fst (recorded Background f sched fresh),
             Return (success, Some (errorString err)))
          /\ err = "scope recovered: " +:+ out_of_range_1_0
          /\ String.prefix "scope recovered:" err = true).
Proof.
  intros f sched.
  assert (length (failures (snd (recorded Background f sched fresh))) < 4) as Hfew
    by (vm_compute; lia).
  split; [exact Hfew|].
  exact (few_failures_panic_recovered Background f sched fresh Hfew).
Defined.

(** ** Where [parallel] departs from its contract *)

(** C1: three work items of which the second panics and the others
    succeed, all goroutines finished when [errs] is read.  The slot of the
    second item holds the error made of its panic, yet [parallel] returns
    the success count 6 and the error of its own recovered panic, and
    [All] hands that error to the checker. *)
Theorem one_fault_among_three :
  let f := [riddle.AddOne; panicking "boom"; riddle.AddTwo] in
  snd (recorded Background f [0; 1; 2] fresh)
  = [None; Some (errorString "scope recovered: boom"); None]
  /\ snd (parallel Background f [0; 1; 2] fresh)
     = Return (6, Some (errorString
         "scope recovered: runtime error: slice bounds out of range [1:0]"))
  /\ events (fst (All Background logging None f [0; 1; 2] fresh))
     = [EvWork 0; EvWork 1; EvWork 2;
        EvChecker (Some (errorString
          "scope recovered: runtime error: slice bounds out of range [1:0]"))].
Proof. vm_compute. done. Qed.

(** C2: a batch whose only item fails, and a batch of one success and four
    failures, all goroutines finished when [errs] is read.  [Any] does not
    call the checker on the first, where no item succeeded, and [All] does
    not call it on the second, where four items failed. *)
Theorem any_and_all_miss_the_report :
  events (fst (Any Background logging None [failing "a"] [0] fresh))
  = [EvWork 0]
  /\ snd (parallel Background [failing "a"] [0] fresh)
     = Return (4, Some (errorString
         "scope recovered: runtime error: slice bounds out of range [1:0]"))
  /\ events (fst (All Background logging None
                   [riddle.AddOne; failing "a"; failing "b"; failing "c"; failing "d"]
                   [0; 1; 2; 3; 4] fresh))
     = [EvWork 0; EvWork 1; EvWork 2; EvWork 3; EvWork 4]
  /\ snd (parallel Background
            [riddle.AddOne; failing "a"; failing "b"; failing "c"; failing "d"]
            [0; 1; 2; 3; 4] fresh)
     = Return (5, None).
Proof. vm_compute. done. Qed.

Section EmptyBatch.

Context {T : Type}.

Lemma run_goroutines_empty ctx sched : forall errs (w : world T),
  run_goroutines ctx [] sched errs w = (w, errs).
Proof. induction sched as [|i sched IH]; intros errs w; [done|]. apply IH. Qed.

(** C3: called with no work item, every orchestrator of the [All] family
    calls the checker, with the error [parallel] makes of its own
    recovered panic, before the clean-up. *)
Theorem all_reports_the_empty_batch p ctx chk (c : CleanUp T) sched (w : world T) :
  events (fst (orchestrator KAll p ctx chk (Some c) [] sched w))
  = events w ++ [EvChecker (Some (Errorf_recovered out_of_range_1_0));
                 EvCleanUp (derive p ctx)] ++ released p ctx.
Proof.
  destruct (orchestrator_events KAll p ctx chk (Some c) [] sched w)
    as (w1 & success & err & Hrun & w' & -> & Hev).
  simpl in Hrun. rewrite parallel_spec in Hrun. unfold recorded in Hrun.
  rewrite run_goroutines_empty in Hrun. simpl in Hrun.
  injection Hrun as <- <- <-. simpl. by rewrite Hev.
Qed.

End EmptyBatch.

(** C4: with one failure [parallel] returns the error of its own recovered
    panic in place of the failure, with five failures it returns the fifth
    alone, and with no failure it returns an error all the same; all
    goroutines have finished when [errs] is read. *)
Theorem aggregate_loses_failures :
  snd (parallel Background [failing "a"] [0] fresh)
  = Return (4, Some (errorString
      "scope recovered: runtime error: slice bounds out of range [1:0]"))
  /\ snd (parallel Background
            [failing "a"; failing "b"; failing "c"; failing "d"; failing "e"]
            [0; 1; 2; 3; 4] fresh)
     = Return (4, Some (joinError [errorString "e"]))
  /\ snd (parallel Background [riddle.AddOne] [0] fresh)
     = Return (5, Some (errorString
         "scope recovered: runtime error: slice bounds out of range [1:0]")).
Proof. vm_compute. done. Qed.

(** C8: [parallel] has an execution on a batch of one work item in which
    it returns while the goroutine of the item is started and has not run:
    the slot is nil, the state is untouched and no item was invoked. *)
Theorem parallel_returns_before_the_goroutine :
  rtc (step Background [riddle.AddOne]) (initial [riddle.AddOne] fresh)
      (Config (Returned 5 (Some (errorString
                 "scope recovered: runtime error: slice bounds out of range [1:0]")))
              [0] [None] fresh).
Proof. exact (parallel_can_return_first Background [riddle.AddOne] fresh). Qed.

(** * Further properties of the package *)

(** ** The slice expressions of the compaction loop *)

Section SliceProperties.

(** X1: [append(errs[:i], errs[i+1:]...)] returns only when [i] is below
    the length of [errs], and then it has removed the entry at [i] and
    nothing else and kept the capacity; it panics only when [i] is at or
    beyond the length. *)
Theorem delete_at_bounds (l : list (option error)) (c i : nat)
    (Hcap : length l <= c) :
  match delete_at (Slice l c) i with
  | Return s => i < length l /\ s = Slice (delete i l) c
  | Panic _ => length l <= i
  end.
Proof.
  unfold delete_at, slice_to, slice_from; simpl.
  destruct (Nat.ltb_spec c i) as [?|_]; [lia|].
  destruct (Nat.ltb_spec (length l) (i + 1)) as [?|?]; [lia|].
  split; [lia|]. by rewrite delete_take_drop, Nat.add_1_r.
Qed.

(** X2: whatever [nilIdx] holds before the scan, the compaction first
    deletes the nil entries of [errs], from the highest index down, which
    leaves the failures in their order, and then goes through the entries
    [nilIdx] held before the scan, last to first. *)
Theorem compaction_deletes_nil_first (errs : list (option error)) (c : nat)
    (nilIdx : list nat) (Hcap : length errs <= c) :
  compact (rev (scan_nil 0 errs nilIdx)) (Slice errs c)
  = compact (rev nilIdx) (Slice (Some <$> failures errs) c).
Proof.
  rewrite scan_nil_indices, rev_app_distr, compact_app.
  pose proof (compact_nil_indices errs [] c) as H.
  rewrite !app_nil_r in H. by rewrite H.
Qed.

End SliceProperties.

Lemma delete_at_bounds_witness :
  3 <= 5
  /\ match delete_at (Slice [None; Some (errorString "a"); None] 5) 1 with
     | Return s =>
         1 < 3 /\ s = Slice (delete 1 [None; Some (errorString "a"); None]) 5
     | Panic _ => 3 <= 1
     end.
Proof.
  split; [lia|].
  apply (delete_at_bounds [None; Some (errorString "a"); None] 5 1). simpl. lia.
Defined.

Lemma compaction_deletes_nil_first_witness :
  3 <= 3
  /\ compact (rev (scan_nil 0 [None; Some (errorString "a"); None] [7]))
             (Slice [None; Some (errorString "a"); None] 3)
     = compact (rev [7])
               (Slice (Some <$> failures [None; Some (errorString "a"); None]) 3).
Proof.
  split; [lia|].
  apply (compaction_deletes_nil_first [None; Some (errorString "a"); None] 3 [7]).
  simpl. lia.
Defined.

(** ** The goroutines of [parallel] and the slots of [errs] *)

Section SlotProperties.

Context {T : Type}.
Implicit Types (f : list (Work T)) (w : world T) (errs : list (option error)).

Lemma goroutine_other ctx i (wk : Work T) errs w j :
  i <> j -> snd (goroutine ctx i wk errs w) !! j = errs !! j.
Proof.
  intros Hij. unfold goroutine.
  destruct (call_work ctx i wk w) as [w' [[e|]|r]]; simpl;
    by rewrite ?list_lookup_insert_ne.
Qed.

(** X3: the goroutine of work item [i] writes no slot of [errs] but its
    own: every other slot is as before, whether the item succeeds, fails or
    panics, and the number of slots does not change. *)
Theorem goroutine_writes_its_slot_only ctx i (wk : Work T) errs w j
    (Hother : i <> j) :
  snd (goroutine ctx i wk errs w) !! j = errs !! j
  /\ length (snd (goroutine ctx i wk errs w)) = length errs.
Proof. split; [by apply goroutine_other | apply goroutine_length]. Qed.

Lemma run_goroutines_other ctx f sched j : forall errs w,
  j ∉ sched -> snd (run_goroutines ctx f sched errs w) !! j = errs !! j.
Proof.
  induction sched as [|i sched IH]; intros errs w Hj; simpl; [done|].
  apply not_elem_of_cons in Hj as [Hne Hj].
  destruct (f !! i) as [wk|]; [|by apply IH].
  pose proof (goroutine_other ctx i wk errs w j (not_eq_sym Hne)) as Hsame.
  destruct (goroutine ctx i wk errs w) as [w' errs']. simpl in Hsame.
  rewrite IH by done. exact Hsame.
Qed.

(** X4: when [parallel] reads [errs] there is one slot per work item, and
    the slot of every item whose goroutine has not finished is nil: the
    item counts as a success. *)
Theorem unfinished_items_count_as_successes ctx f sched w j
    (Hj : j < length f) (Hunfinished : j ∉ sched) :
  length (snd (recorded ctx f sched w)) = length f
  /\ snd (recorded ctx f sched w) !! j = Some None.
Proof.
  unfold recorded. split.
  - rewrite run_goroutines_length. simpl. apply length_replicate.
  - rewrite run_goroutines_other by done. simpl.
    by apply lookup_replicate_2.
Qed.

Lemma run_goroutines_world ctx f sched : forall errs w,
  Forall (fun i => i < length f) sched ->
  fst (run_goroutines ctx f sched errs w)
  = World (exec ctx (scheduled f sched) (state w)) (events w ++ (EvWork <$> sched)).
Proof.
  induction sched as [|i sched IH]; intros errs w Hsched; simpl.
  - destruct w. simpl. by rewrite app_nil_r.
  - apply Forall_cons in Hsched as [Hi Hsched].
    destruct (lookup_lt_is_Some_2 f i Hi) as [wk Hwk].
    unfold scheduled in *. simpl. rewrite Hwk. simpl.
    pose proof (goroutine_events ctx i wk errs w) as Hev.
    assert (state (fst (goroutine ctx i wk errs w)) = fst (wk ctx (state w))) as Hst.
    { unfold goroutine, call_work.
      by destruct (wk ctx (state w)) as [st [[e|]|r]]. }
    destruct (goroutine ctx i wk errs w) as [w' errs']. simpl in Hev, Hst.
    rewrite IH by done. rewrite Hev, Hst, <- app_assoc. done.
Qed.

Lemma scheduled_all f pre :
  omap (fun i => (pre ++ f) !! i) (seq (length pre) (length f)) = f.
Proof.
  revert pre. induction f as [|wk f IH]; intros pre; [done|].
  simpl. rewrite list_lookup_middle by done. simpl. f_equal.
  specialize (IH (pre ++ [wk])).
  rewrite length_app, <- app_assoc in IH. simpl in IH.
  by rewrite Nat.add_1_r in IH.
Qed.

(** X5: when every goroutine has finished, in the order of the batch,
    before [parallel] reads [errs], every work item has been invoked, once
    and on the state its predecessor left, whatever the items before it
    returned: a failure or a panic of one item stops none of the others. *)
Theorem parallel_runs_every_item ctx f w :
  fst (parallel ctx f (seq 0 (length f)) w)
  = World (exec ctx f (state w)) (events w ++ (EvWork <$> seq 0 (length f))).
Proof.
  rewrite parallel_spec. simpl. unfold recorded.
  rewrite run_goroutines_world.
  - pose proof (scheduled_all f []) as Hall. simpl in Hall.
    unfold scheduled. by rewrite Hall.
  - apply Forall_forall. intros i Hi. apply elem_of_seq in Hi. lia.
Qed.

Lemma count_nil_failures errs : count_nil errs + length (failures errs) = length errs.
Proof.
  unfold failures. induction errs as [|[e|] errs IH]; cbn in *; lia.
Qed.

(** X6: the success count of [parallel] and the number of failures it has
    read from [errs] add up to the number of work items plus 4. *)
Theorem success_plus_failures ctx f sched w :
  exists success err,
    snd (parallel ctx f sched w) = Return (success, err)
    /\ success + length (failures (snd (recorded ctx f sched w))) = 4 + length f.
Proof.
  rewrite parallel_spec. eexists _, _. split; [done|].
  pose proof (count_nil_failures (snd (recorded ctx f sched w))) as Hsum.
  unfold recorded in *. rewrite run_goroutines_length in Hsum. simpl in *.
  rewrite length_replicate in Hsum. lia.
Qed.

End SlotProperties.

Lemma goroutine_writes_its_slot_only_witness :
  1 <> 0
  /\ (snd (goroutine Background 1 (panicking "boom")
                     [Some (errorString "a"); None] fresh) !! 0
      = [Some (errorString "a"); None] !! 0
      /\ length (snd (goroutine Background 1 (panicking "boom")
                                [Some (errorString "a"); None] fresh))
         = length [Some (errorString "a"); None]).
Proof.
  split; [lia|].
  apply (goroutine_writes_its_slot_only Background 1 (panicking "boom")
           [Some (errorString "a"); None] fresh 0).
  lia.
Defined.

Lemma unfinished_items_count_as_successes_witness :
  let f := [failing "a"; failing "b"] in
  1 < length f /\ (1 ∉ [0])
  /\ (length (snd (recorded Background f [0] fresh)) = length f
      /\ snd (recorded Background f [0] fresh) !! 1 = Some None).
Proof.
  intros f.
  assert (1 < length f) as Hj by (simpl; lia).
  assert (1 ∉ [0]) as Hout by (intros H; apply list_elem_of_singleton in H; lia).
  split; [exact Hj|]. split; [exact Hout|].
  exact (unfinished_items_count_as_successes Background f [0] fresh 1 Hj Hout).
Defined.

(** ** What the orchestrators report and leave behind *)

Section ReportProperties.

Context {T : Type}.
Implicit Types (f : list (Work T)) (w : world T).

(** The state an orchestrator leaves: that of its runner, then the checker
    if it is called, then the clean-up if there is one. *)
Lemma orchestrator_state k p ctx chk cl f sched w :
  exists w1 success err,
    runner k (derive p ctx) f sched w = (w1, Return (success, err))
    /\ state (fst (orchestrator k p ctx chk cl f sched w))
       = after_cleanup cl (derive p ctx) (after_report k chk success err (state w1)).
Proof.
  destruct (runner_returns k (derive p ctx) f sched w)
    as (w1 & success & err & ran & Hrun & _ & _ & Hany).
  exists w1, success, err. split; [done|].
  unfold after_report, after_cleanup, reported.
  destruct k, p; simpl in Hrun |- *;
    unfold Sequence, SequenceWithCancel, SequenceWithTimeout, SequenceWithDeadline,
      All, AllWithCancel, AllWithTimeout, AllWithDeadline,
      Any, AnyWithCancel, AnyWithTimeout, AnyWithDeadline, deferred, bind in *;
    unfold ret in Hrun;
    try (destruct (sequence _ f w) as [w2 [err2|v2]]; [|done];
         injection Hrun as -> <- ->);
    try rewrite Hrun; simpl;
    unfold check_error, check_success, clean_up, call_checker, call_cleanup, ret, emit;
    try rewrite (Hany eq_refl);
    destruct err as [e|], cl as [c|]; reflexivity.
Qed.

(** X8: an orchestrator of the [Sequence] family calls the checker exactly
    when [sequence] returns a failure, once and with that failure, between
    the work items and the clean-up; the checker and then the clean-up act
    on the state the work items left. *)
Theorem sequence_family_reports_the_failure p ctx chk cl f sched w :
  exists w1 err,
    sequence (derive p ctx) f w = (w1, Return err)
    /\ events (fst (orchestrator KSequence p ctx chk cl f sched w))
       = events w1
           ++ match err with Some _ => [EvChecker err] | None => [] end
           ++ cleaned cl (derive p ctx) ++ released p ctx
    /\ state (fst (orchestrator KSequence p ctx chk cl f sched w))
       = after_cleanup cl (derive p ctx)
           (match err with Some _ => chk err (state w1) | None => state w1 end).
Proof.
  destruct (orchestrator_events KSequence p ctx chk cl f sched w)
    as (w1 & success & err & Hrun & w' & Horch & Hev).
  destruct (orchestrator_state KSequence p ctx chk cl f sched w)
    as (w1' & success' & err' & Hrun' & Hst).
  rewrite Hrun in Hrun'. injection Hrun' as <- <- <-.
  simpl in Hrun. unfold bind, ret in Hrun.
  destruct (sequence (derive p ctx) f w) as [w2 [err2|v2]]; [|done].
  injection Hrun as -> <- ->.
  exists w1, err. split_and!; [done | by rewrite Horch | ].
  rewrite Hst. unfold after_report, reported. by destruct err.
Qed.

(** X10: an orchestrator called with a nil clean-up returns without
    calling one: its events are the work items, at most one call of the
    checker and the release of its context. *)
Theorem nil_cleanup_is_skipped k p ctx chk f sched w :
  exists w' ran rep,
    orchestrator k p ctx chk None f sched w = (w', Return tt)
    /\ events w' = events w ++ ran ++ rep ++ released p ctx
    /\ forallb is_work ran = true
    /\ (rep = [] \/ exists err, rep = [EvChecker err])
    /\ forallb (fun ev => negb (is_cleanup ev)) (ran ++ rep ++ released p ctx) = true.
Proof.
  destruct (orchestrator_events k p ctx chk None f sched w)
    as (w1 & success & err & Hrun & w' & Horch & Hev).
  destruct (runner_returns k (derive p ctx) f sched w)
    as (w1' & success' & err' & ran & Hrun' & Hran & Hwork & _).
  rewrite Hrun in Hrun'. injection Hrun' as <- <- <-.
  assert (reported k success err = [] \/ exists e, reported k success err = [EvChecker e])
    as Hrep.
  { unfold reported. destruct k, err, (success =? 0); eauto. }
  assert (events w' = events w ++ ran ++ reported k success err ++ released p ctx)
    as Hev'.
  { rewrite Hev, Hran, <- !app_assoc. done. }
  exists w', ran, (reported k success err).
  split_and!; [done | done | done | done |].
  rewrite !forallb_app.
  assert (forallb (fun ev => negb (is_cleanup ev)) ran = true) as ->.
  { clear -Hwork. induction ran as [|[] ran IH]; simpl in *; auto; discriminate. }
  assert (forallb (fun ev => negb (is_cleanup ev)) (reported k success err) = true) as ->.
  { destruct Hrep as [->|[e ->]]; done. }
  assert (forallb (fun ev => negb (is_cleanup ev)) (released p ctx) = true) as ->.
  { by destruct p. }
  done.
Qed.

Lemma deferred_spec {A} ev (m : M T A) w :
  deferred ev m w
  = (World (state (fst (m w))) (events (fst (m w)) ++ [ev]), snd (m w)).
Proof. unfold deferred, emit. by destruct (m w). Qed.

(** X11: each variant with a cancel function, a timeout or a deadline does
    what the plain orchestrator of its kind does on the derived context,
    and then releases that context. *)
Theorem variant_is_plain_on_derived_context k p ctx chk cl f sched w :
  orchestrator k p ctx chk cl f sched w
  = (World (state (fst (orchestrator k Plain (derive p ctx) chk cl f sched w)))
           (events (fst (orchestrator k Plain (derive p ctx) chk cl f sched w))
              ++ released p ctx),
     snd (orchestrator k Plain (derive p ctx) chk cl f sched w)).
Proof.
  destruct k, p; simpl; rewrite ?app_nil_r;
    first [ exact (deferred_spec _ (Sequence _ chk cl f) w)
          | exact (deferred_spec _ (All _ chk cl f sched) w)
          | exact (deferred_spec _ (Any _ chk cl f sched) w)
          | match goal with |- ?x = _ => by destruct x as [[] ?] end ].
Qed.

(** X12: when every work item succeeds, an orchestrator of the [Sequence]
    family hands the clean-up the state that all the items, run in order,
    have left, and does not call the checker. *)
Theorem cleanup_sees_the_work_done p ctx chk (c : CleanUp T) f sched w
    (Hall : forall j, j < length f ->
              result_at (derive p ctx) f (state w) j = Some (Return None)) :
  fst (orchestrator KSequence p ctx chk (Some c) f sched w)
  = World (c (derive p ctx) (exec (derive p ctx) f (state w)))
          (events w ++ (EvWork <$> seq 0 (length f))
             ++ [EvCleanUp (derive p ctx)] ++ released p ctx).
Proof.
  destruct (orchestrator_events KSequence p ctx chk (Some c) f sched w)
    as (w1 & success & err & Hrun & w' & Horch & Hev).
  destruct (orchestrator_state KSequence p ctx chk (Some c) f sched w)
    as (w1' & success' & err' & Hrun' & Hst).
  rewrite Hrun in Hrun'. injection Hrun' as <- <- <-.
  simpl in Hrun. unfold bind, ret, sequence, recovering in Hrun.
  destruct (sequence_loop_spec (derive p ctx) f 0 w)
    as [[_ Hloop]|(k & r & Hk & _ & Hat & Hr & _)].
  - rewrite Hloop in Hrun. injection Hrun as <- <- <-.
    rewrite Horch in Hst |- *. destruct w' as [st evs].
    simpl in *. by rewrite Hev, Hst, <- app_assoc.
  - rewrite (Hall k Hk) in Hat. by injection Hat as <-.
Qed.

End ReportProperties.

Lemma cleanup_sees_the_work_done_witness :
  let f := [riddle.AddOne; riddle.AddTwo; riddle.SubOne] in
  (forall j, j < length f ->
     result_at (derive (Timeout 5) Background) f (state fresh) j = Some (Return None))
  /\ fst (orchestrator KSequence (Timeout 5) Background logging
                       (Some riddle.JustPrint) f [] fresh)
     = World (riddle.JustPrint (derive (Timeout 5) Background)
                (exec (derive (Timeout 5) Background) f (state fresh)))
             (events fresh ++ (EvWork <$> seq 0 (length f))
                ++ [EvCleanUp (derive (Timeout 5) Background)]
                ++ released (Timeout 5) Background).
Proof.
  intros f.
  assert (forall j, j < length f ->
            result_at (derive (Timeout 5) Background) f (state fresh) j
            = Some (Return None)) as Hall.
  { intros [|[|[|j]]] Hj; [reflexivity | reflexivity | reflexivity |].
    simpl in Hj. lia. }
  split; [exact Hall|].
  exact (cleanup_sees_the_work_done (Timeout 5) Background logging
           riddle.JustPrint f [] fresh Hall).
Defined.

(** ** The sequential runner on a batch in two parts *)

Section SequenceProperties.

Context {T : Type}.
Implicit Types (f : list (Work T)) (w : world T).

Lemma sequence_loop_app ctx f1 f2 : forall i w,
  sequence_loop ctx i (f1 ++ f2) w
  = match sequence_loop ctx i f1 w with
    | (w1, Return None) => sequence_loop ctx (i + length f1) f2 w1
    | (w1, r) => (w1, r)
    end.
Proof.
  induction f1 as [|wk f1 IH]; intros i w; simpl.
  - by rewrite Nat.add_0_r.
  - unfold bind, call_work. destruct (wk ctx (state w)) as [st [[e|]|v]]; [done | | done].
    rewrite IH. by replace (S i + length f1) with (i + S (length f1)) by lia.
Qed.

(** The position [sequence_loop] counts from shows in the events only. *)
Lemma sequence_loop_index ctx f : forall i j w w',
  state w = state w' ->
  state (fst (sequence_loop ctx i f w)) = state (fst (sequence_loop ctx j f w'))
  /\ snd (sequence_loop ctx i f w) = snd (sequence_loop ctx j f w').
Proof.
  induction f as [|wk f IH]; intros i j w w' Hst; simpl; [done|].
  unfold bind, call_work. rewrite Hst.
  destruct (wk ctx (state w')) as [st [[e|]|v]]; [done | | done].
  by apply IH.
Qed.

(** X13: when [sequence] returns a failure on a batch, it returns the same
    failure and leaves the same state and events on the batch followed by
    any further work items: none of them is invoked. *)
Theorem sequence_ignores_what_follows_a_failure ctx f1 f2 w w1 e
    (Hfail : sequence ctx f1 w = (w1, Return (Some e))) :
  sequence ctx (f1 ++ f2) w = (w1, Return (Some e)).
Proof.
  unfold sequence, recovering in *. rewrite sequence_loop_app.
  destruct (sequence_loop ctx 0 f1 w) as [w2 [[e2|]|v]]; [done | done | done].
Qed.

(** X14: when [sequence] returns nil on a batch, running the batch
    followed by further work items leaves the state that running the
    further items on their own, from the state the batch left, leaves, and
    returns what that run returns. *)
Theorem sequence_continues_after_success ctx f1 f2 w w1
    (Hok : sequence ctx f1 w = (w1, Return None)) :
  state (fst (sequence ctx (f1 ++ f2) w)) = state (fst (sequence ctx f2 w1))
  /\ snd (sequence ctx (f1 ++ f2) w) = snd (sequence ctx f2 w1).
Proof.
  unfold sequence, recovering in *. rewrite sequence_loop_app.
  destruct (sequence_loop ctx 0 f1 w) as [w2 [[e2|]|v]]; [done | | done].
  injection Hok as ->.
  destruct (sequence_loop_index ctx f2 (0 + length f1) 0 w1 w1 eq_refl) as [Hst Hres].
  destruct (sequence_loop ctx (0 + length f1) f2 w1) as [wa ra].
  destruct (sequence_loop ctx 0 f2 w1) as [wb rb].
  simpl in *. subst rb. by destruct ra.
Qed.

End SequenceProperties.

Lemma sequence_ignores_what_follows_a_failure_witness :
  sequence Background [riddle.AddOne; failing "a"] fresh
  = (World {| riddle.number := 1 |} [EvWork 0; EvWork 1],
     Return (Some (errorString "a")))
  /\ sequence Background ([riddle.AddOne; failing "a"] ++ [riddle.AddTwo]) fresh
     = (World {| riddle.number := 1 |} [EvWork 0; EvWork 1],
        Return (Some (errorString "a"))).
Proof.
  split; [reflexivity|].
  apply (sequence_ignores_what_follows_a_failure Background
           [riddle.AddOne; failing "a"] [riddle.AddTwo] fresh).
  reflexivity.
Defined.

Lemma sequence_continues_after_success_witness :
  let w1 := World {| riddle.number := 3 |} [EvWork 0; EvWork 1] in
  sequence Background [riddle.AddOne; riddle.AddTwo] fresh = (w1, Return None)
  /\ (state (fst (sequence Background
                    ([riddle.AddOne; riddle.AddTwo] ++ [failing "a"]) fresh))
      = state (fst (sequence Background [failing "a"] w1))
      /\ snd (sequence Background
                 ([riddle.AddOne; riddle.AddTwo] ++ [failing "a"]) fresh)
         = snd (sequence Background [failing "a"] w1)).
Proof.
  intros w1. split; [reflexivity|].
  apply (sequence_continues_after_success Background
           [riddle.AddOne; riddle.AddTwo] [failing "a"] fresh w1).
  reflexivity.
Defined.

(** ** Package riddle and the program of the README *)

Section RiddleProperties.

Local Open Scope Z_scope.

Lemma wrap64_small z : - 2 ^ 63 <= z < 2 ^ 63 -> riddle.wrap64 z = z.
Proof. intros Hz. unfold riddle.wrap64. rewrite Z.mod_small; lia. Qed.

Lemma wrap64_add a b : riddle.wrap64 (riddle.wrap64 a + b) = riddle.wrap64 (a + b).
Proof.
  unfold riddle.wrap64. f_equal.
  replace ((a + 2 ^ 63) mod 2 ^ 64 - 2 ^ 63 + b + 2 ^ 63)
    with ((a + 2 ^ 63) mod 2 ^ 64 + b) by lia.
  rewrite Zplus_mod_idemp_l. f_equal. lia.
Qed.

(** The three work items of the README in sequence add 2 to the number,
    in 64-bit arithmetic, call no checker and, with [JustPrint], leave the
    number to the caller. *)
Lemma readme_run_adds_two (w : world riddle.State) :
  readme_run w
  = (World {| riddle.number := riddle.wrap64 (riddle.number (state w) + 2) |}
           (events w ++ [EvWork 0%nat; EvWork 1%nat; EvWork 2%nat;
                         EvCleanUp Background]),
     Return tt).
Proof.
  unfold readme_run, Sequence, sequence, recovering, bind. simpl.
  unfold bind, call_work, ret. simpl.
  unfold clean_up, check_error, ret, call_cleanup, riddle.JustPrint. simpl.
  rewrite wrap64_add, <- Z.add_assoc, wrap64_add, <- !app_assoc. simpl.
  replace (riddle.number (state w) + 1 + (2 + -1)) with (riddle.number (state w) + 2)
    by lia.
  done.
Qed.

(** X15: the program of the README: [n] runs of [Sequence] over [AddOne],
    [AddTwo] and [SubOne] with [JustPrint] as clean-up, on one state that
    starts at 0, leave the number at [2 * n], as long as that is below
    [2 ^ 63], and never call the checker. *)
Theorem readme_runs_count (n : nat) (Hsmall : 2 * Z.of_nat n < 2 ^ 63) :
  riddle.number (state (readme_runs n)) = 2 * Z.of_nat n
  /\ forallb (fun ev => negb (is_checker ev)) (events (readme_runs n)) = true.
Proof.
  induction n as [|n IH]; [done|].
  destruct IH as [IHnum IHev]; [lia|].
  unfold readme_runs in *. rewrite Nat.iter_succ, readme_run_adds_two.
  cbn [fst state events riddle.number]. rewrite IHnum. split.
  - rewrite wrap64_small; lia.
  - rewrite forallb_app, IHev. done.
Qed.

End RiddleProperties.

Lemma readme_runs_count_witness :
  (2 * Z.of_nat 3 < 2 ^ 63)%Z
  /\ (riddle.number (state (readme_runs 3)) = 2 * Z.of_nat 3)%Z
  /\ forallb (fun ev => negb (is_checker ev)) (events (readme_runs 3)) = true.
Proof.
  assert (2 * Z.of_nat 3 < 2 ^ 63)%Z as Hsmall by (vm_compute; reflexivity).
  split; [exact Hsmall|].
  exact (readme_runs_count 3 Hsmall).
Defined.

(** ** Goroutines that outlive [parallel] *)

Section LateGoroutineFacts.

Context {T : Type}.
Implicit Types (f : list (Work T)) (w : world T).

(** [compact] is [compact_var] without the variable. *)
Lemma compact_var_compact nilIdx : forall errs : slice (option error),
  compact nilIdx errs
  = match compact_var nilIdx errs with
    | (errs', None) => Return errs'
    | (_, Some r) => Panic r
    end.
Proof.
  induction nilIdx as [|i nilIdx IH]; intros errs; simpl; [done|].
  destruct (delete_at errs i) as [errs'|r]; [apply IH | done].
Qed.

(** While slot [i] exists, the goroutine on the variable is [goroutine]. *)
Lemma go_func_in_range ctx i (wk : Work T) (errs : slice (option error)) w :
  i < length (elems errs) ->
  go_func ctx i wk errs w
  = (fst (goroutine ctx i wk (elems errs) w),
     Return (Slice (snd (goroutine ctx i wk (elems errs) w)) (cap errs))).
Proof.
  intros Hi. apply Nat.ltb_lt in Hi. unfold go_func, goroutine, store_at.
  destruct (call_work ctx i wk w) as [w' [[e|]|r]]; rewrite ?Hi; simpl;
    [done | by destruct errs | done].
Qed.

Lemma recorded_from ctx rest : forall pre filled w,
  length filled = length pre ->
  snd (run_goroutines ctx (pre ++ rest) (seq (length pre) (length rest))
                      (filled ++ replicate (length rest) None) w)
  = filled ++ outcomes ctx rest (state w).
Proof.
  induction rest as [|wk rest IH]; intros pre filled w Hlen; [done|].
  cbn [length seq run_goroutines outcomes replicate].
  rewrite list_lookup_middle by done.
  assert (goroutine ctx (length pre) wk (filled ++ None :: replicate (length rest) None) w
          = (World (fst (wk ctx (state w))) (events w ++ [EvWork (length pre)]),
             (filled ++ [failure_of (snd (wk ctx (state w)))])
               ++ replicate (length rest) None)) as ->.
  { unfold goroutine, call_work. rewrite <- Hlen.
    destruct (wk ctx (state w)) as [st [[e|]|v]]; simpl;
      rewrite <- ?app_assoc; try done;
      by rewrite insert_app_r_alt, Nat.sub_diag by lia. }
  specialize (IH (pre ++ [wk]) (filled ++ [failure_of (snd (wk ctx (state w)))])
                 (World (fst (wk ctx (state w))) (events w ++ [EvWork (length pre)]))).
  rewrite !length_app, <- app_assoc in IH. simpl in IH.
  rewrite !Nat.add_1_r in IH. rewrite IH by lia.
  by rewrite <- app_assoc.
Qed.

(** When every goroutine has finished, in the order of the batch, the
    slots hold what the items left. *)
Lemma recorded_in_order ctx f w :
  snd (recorded ctx f (seq 0 (length f)) w) = outcomes ctx f (state w).
Proof. exact (recorded_from ctx f [] [] w eq_refl). Qed.

End LateGoroutineFacts.

Section LateGoroutineTheorems.

Context {T : Type}.
Implicit Types (f : list (Work T)) (w : world T).

Lemma compact_var_app a b : forall errs : slice (option error),
  compact_var (a ++ b) errs
  = match compact_var a errs with
    | (errs', None) => compact_var b errs'
    | (errs', Some r) => (errs', Some r)
    end.
Proof.
  induction a as [|i a IH]; intros errs; simpl; [done|].
  destruct (delete_at errs i) as [errs'|r]; [apply IH | done].
Qed.

Lemma compact_var_zeros (l : list (option error)) c :
  length l < 4 ->
  compact_var [0; 0; 0; 0] (Slice l c) = (Slice [] c, Some out_of_range_1_0).
Proof.
  intros Hl. destruct l as [|x1 [|x2 [|x3 [|x4 l]]]]; try reflexivity.
  simpl in Hl. lia.
Qed.

(** When [parallel] has read fewer than four failures, the compaction has
    emptied the variable [errs] by the time it panics. *)
Lemma errs_left_empty f (slots : list (option error)) :
  length slots = length f ->
  length (failures slots) < 4 ->
  errs_left f slots = Slice [] (length f).
Proof.
  intros Hlen Hfew. unfold errs_left.
  rewrite scan_nil_indices, rev_app_distr, compact_var_app.
  pose proof (compact_nil_indices slots [] (length f)) as Hnil.
  rewrite !app_nil_r in Hnil. rewrite compact_var_compact in Hnil.
  destruct (compact_var (rev (nil_indices 0 slots)) (Slice slots (length f)))
    as [errs' [r|]]; [by specialize (Hnil ltac:(lia)) |].
  injection (Hnil ltac:(lia)) as ->.
  change (rev (elems (make 0 4))) with [0; 0; 0; 0].
  rewrite compact_var_zeros; [done | by rewrite length_fmap].
Qed.

(** A goroutine whose work item fails or panics, running when the
    variable [errs] is empty, ends with a panic nobody recovers. *)
Lemma go_func_on_empty ctx i (wk : Work T) c w :
  snd (wk ctx (state w)) <> Return None ->
  exists r, snd (go_func ctx i wk (Slice [] c) w) = Panic r.
Proof.
  intros Hfail. unfold go_func, call_work, store_at.
  destruct (wk ctx (state w)) as [st [[e|]|v]]; simpl in *; [| done |];
    by eexists.
Qed.

End LateGoroutineTheorems.

(** C6: a panic of a work item is not always delivered by [parallel], and
    can end the process.  Four work items that all panic, every goroutine
    finished when [errs] is read: each slot holds the error made of the
    panic, and [parallel] returns nil, so that [All] calls no checker.
    One work item that panics and whose goroutine runs after [parallel]
    has returned: the variable [errs] is empty by then, the handler's
    [errs[0] = ...] panics, and the goroutine ends with that panic. *)
Theorem faults_are_lost_or_fatal :
  let f := [panicking "a"; panicking "b"; panicking "c"; panicking "d"] in
  snd (recorded Background f [0; 1; 2; 3] fresh)
  = [Some (errorString "scope recovered: a"); Some (errorString "scope recovered: b");
     Some (errorString "scope recovered: c"); Some (errorString "scope recovered: d")]
  /\ snd (parallel Background f [0; 1; 2; 3] fresh) = Return (4, None)
  /\ events (fst (All Background logging None f [0; 1; 2; 3] fresh))
     = [EvWork 0; EvWork 1; EvWork 2; EvWork 3]
  /\ errs_left [panicking "boom"]
               (snd (recorded Background [panicking "boom"] [] fresh))
     = Slice [] 1
  /\ go_func Background 0 (panicking "boom") (Slice [] 1)
             (fst (parallel Background [panicking "boom"] [] fresh))
     = (World riddle.NewState [EvWork 0],
        Panic "runtime error: index out of range [0] with length 0").
Proof. vm_compute. done. Qed.

(** C7: [All] on one work item that returns an error, whose goroutine runs
    after [parallel] has returned and before the checker and the clean-up
    are called.  [parallel] has returned with the goroutine not run and
    has left the variable [errs] empty; the goroutine's [errs[0] = err]
    panics, the handler's [errs[0] = ...] panics again, and the goroutine
    ends with that panic when the events hold no call of the clean-up. *)
Theorem late_failure_ends_the_process_before_cleanup :
  let f := [failing "a"] in
  parallel Background f [] fresh
  = (fresh, Return (5, Some (errorString
       "scope recovered: runtime error: slice bounds out of range [1:0]")))
  /\ errs_left f (snd (recorded Background f [] fresh)) = Slice [] 1
  /\ go_func Background 0 (failing "a") (Slice [] 1)
             (fst (parallel Background f [] fresh))
     = (World riddle.NewState [EvWork 0],
        Panic "runtime error: index out of range [0] with length 0")
  /\ forallb (fun ev => negb (is_cleanup ev))
       (events (fst (go_func Background 0 (failing "a") (Slice [] 1)
                             (fst (parallel Background f [] fresh)))))
     = true.
Proof. vm_compute. done. Qed.

(** ** When every goroutine has finished before [errs] is read *)

Section JoinedProperties.

Context {T : Type}.
Implicit Types (f : list (Work T)) (w : world T).

(** X7: when every goroutine has finished, in the order of the batch,
    before [parallel] reads [errs], and four work items or more have
    failed, [parallel] returns the join of the failures after the fourth,
    in the order of the batch, and nil when exactly four have failed. *)
Theorem failures_after_the_fourth ctx f w
    (Hmany : 4 <= length (failures (outcomes ctx f (state w)))) :
  snd (parallel ctx f (seq 0 (length f)) w)
  = Return (4 + count_nil (outcomes ctx f (state w)),
            match drop 4 (failures (outcomes ctx f (state w))) with
            | [] => None
            | es => Some (joinError es)
            end).
Proof.
  rewrite parallel_spec, recorded_in_order. simpl.
  destruct (Nat.ltb_spec (length (failures (outcomes ctx f (state w)))) 4)
    as [?|_]; [lia | done].
Qed.

(** X9: when every goroutine has finished, in the order of the batch,
    before [parallel] reads [errs], an orchestrator of the [All] family
    calls the checker unless exactly four work items have failed: with
    fewer it hands over the error of the recovered panic of [parallel],
    with more the join of the failures after the fourth, and with four it
    calls nothing. *)
Theorem all_family_reports_unless_four p ctx chk cl f w :
  let failed := failures (outcomes (derive p ctx) f (state w)) in
  events (fst (orchestrator KAll p ctx chk cl f (seq 0 (length f)) w))
  = events w ++ (EvWork <$> seq 0 (length f))
      ++ (if length failed <? 4
          then [EvChecker (Some (Errorf_recovered out_of_range_1_0))]
          else if length failed =? 4 then []
          else [EvChecker (Some (joinError (drop 4 failed)))])
      ++ cleaned cl (derive p ctx) ++ released p ctx.
Proof.
  intros failed.
  destruct (orchestrator_events KAll p ctx chk cl f (seq 0 (length f)) w)
    as (w1 & success & err & Hrun & w' & -> & Hev).
  simpl in Hrun. rewrite parallel_spec, recorded_in_order in Hrun.
  injection Hrun as <- <- <-.
  simpl. rewrite Hev. unfold recorded. rewrite run_goroutines_world.
  2: { apply Forall_forall. intros i Hi. apply elem_of_seq in Hi. lia. }
  cbn [events]. rewrite <- app_assoc. do 2 f_equal. fold failed.
  unfold reported.
  destruct (Nat.ltb_spec (length failed) 4) as [Hlt|Hge]; [done|].
  destruct (Nat.eqb_spec (length failed) 4) as [Heq|Hne].
  - by rewrite drop_ge by lia.
  - destruct (drop 4 failed) as [|e es] eqn:Hdrop; [|done].
    apply (f_equal length) in Hdrop. rewrite length_drop in Hdrop.
    simpl in Hdrop. lia.
Qed.

End JoinedProperties.

(** X16: with [ResetAndPrint] as clean-up an orchestrator leaves the number
    at 0 when no work item runs after the clean-up: every orchestrator of
    the [Sequence] family, and those of the [All] and [Any] families when
    every goroutine has finished, in the order of the batch, before
    [parallel] reads [errs]. *)
Theorem reset_and_print_leaves_zero k p ctx chk (f : list (Work riddle.State)) w :
  riddle.number
    (state (fst (orchestrator k p ctx chk (Some riddle.ResetAndPrint) f
                              (seq 0 (length f)) w)))
  = 0%Z.
Proof.
  destruct (orchestrator_state k p ctx chk (Some riddle.ResetAndPrint) f
              (seq 0 (length f)) w)
    as (w1 & success & err & _ & ->).
  done.
Qed.

Lemma failures_after_the_fourth_witness :
  let f := [failing "a"; failing "b"; riddle.AddOne; failing "c"; failing "d";
            panicking "e"; failing "g"] in
  4 <= length (failures (outcomes Background f (state fresh)))
  /\ snd (parallel Background f (seq 0 (length f)) fresh)
     = Return (4 + count_nil (outcomes Background f (state fresh)),
               match drop 4 (failures (outcomes Background f (state fresh))) with
               | [] => None
               | es => Some (joinError es)
               end).
Proof.
  intros f.
  assert (4 <= length (failures (outcomes Background f (state fresh)))) as Hmany
    by (vm_compute; lia).
  split; [exact Hmany|].
  exact (failures_after_the_fourth Background f fresh Hmany).
Defined.
